(** * DoReFa-Net quantization layers of the week-14 practice notebook

    Shallow embedding of the three building blocks defined in
    [week14_quantization_practice_additional.ipynb]:

      - [get_uniform_quantizer]  (the [qfn] autograd function),
      - [weight_quantize_fn]     ([__init__] and [forward]),
      - [activation_quantize_fn] ([__init__] and [forward]),

    and of the code around them: the layers [DRFActivation] and
    [DRFConv2d] that call the two modules, and [to_signed_char] with the
    loaders' transform that feeds the networks.

    Numeric model.  A tensor is the flat list of its elements (every
    operation modelled here is element-wise or a whole-tensor reduction,
    so the shape plays no role; the convolution is a parameter).  An
    element is an exact rational, or one of the IEEE special values
    [+inf], [-inf], [nan].  Division by zero yields the special values as
    the tensor library does, and zero carries no sign (every divisor that
    can vanish in the notebook is an absolute value or a positive
    constant, hence [+0]).

    Finite results are exact: the rounding of each single-precision
    operation, its overflow and its underflow are not modelled.  The
    theorems are stated where that rounding cannot change them: they speak
    of exceptions, of the grid levels and integer ranges the outputs fall
    in, of orderings, and of bounds that leave room for the rounding
    error; and they leave out the weight tensors whose [tanh] values all
    lie below [2^-125], on which halving is inexact and the notebook's
    [weight / 2 / max] no longer agrees with [weight / (2 * max)].

    [tanh] is a primitive of the tensor library with irrational values:
    its action on finite elements is a parameter [tanhQ] of the
    development. *)

From Stdlib Require Import ZArith QArith Qabs Qround Qpower Qfield.
From Stdlib Require Import List Bool Lia Lqa Morphisms Setoid.
Import ListNotations.

Set Implicit Arguments.
Open Scope Q_scope.

(** ** Python exceptions and fallible computations *)

Inductive exn : Type :=
| AssertionError
| UnboundLocalError
| OverflowError
| RuntimeError.

Inductive result (A : Type) : Type :=
| Ok (a : A)
| Raise (e : exn).

Arguments Ok {A} a.
Arguments Raise {A} e.

Definition bind {A B : Type} (m : result A) (f : A -> result B) : result B :=
  match m with
  | Ok a => f a
  | Raise e => Raise e
  end.

Notation "x <- m ;; k" := (bind m (fun x => k))
  (at level 61, m at next level, right associativity).

(** [assert c]: continues when [c] holds, raises [AssertionError] otherwise. *)
Definition py_assert (c : bool) : result unit :=
  if c then Ok tt else Raise AssertionError.

(** Reading a local variable of a function frame: a name that was never
    assigned on the path taken raises [UnboundLocalError]. *)
Definition read_local {A : Type} (v : option A) : result A :=
  match v with
  | Some a => Ok a
  | None => Raise UnboundLocalError
  end.

(** ** Tensor elements *)

Inductive scalar : Type :=
| Fin (q : Q)
| Inf (neg : bool)      (* [Inf false] is +inf, [Inf true] is -inf *)
| NaN.

Definition tensor : Type := list scalar.

Definition Qis_zero (q : Q) : bool := Qeq_bool q 0.
Definition Qis_neg (q : Q) : bool := (Qnum q <? 0)%Z.

(** "Same value": rationals up to [Qeq], special values by name. *)
Definition feq (a b : scalar) : Prop :=
  match a, b with
  | Fin p, Fin q => p == q
  | Inf s, Inf t => s = t
  | NaN, NaN => True
  | _, _ => False
  end.

Definition teq : tensor -> tensor -> Prop := Forall2 feq.

Definition is_finite (a : scalar) : bool :=
  match a with Fin _ => true | _ => false end.

Definition fneg (a : scalar) : scalar :=
  match a with
  | Fin q => Fin (- q)
  | Inf s => Inf (negb s)
  | NaN => NaN
  end.

Definition fadd (a b : scalar) : scalar :=
  match a, b with
  | NaN, _ | _, NaN => NaN
  | Fin p, Fin q => Fin (p + q)
  | Inf s, Fin _ | Fin _, Inf s => Inf s
  | Inf s, Inf t => if Bool.eqb s t then Inf s else NaN
  end.

Definition fsub (a b : scalar) : scalar := fadd a (fneg b).

Definition fmul (a b : scalar) : scalar :=
  match a, b with
  | NaN, _ | _, NaN => NaN
  | Fin p, Fin q => Fin (p * q)
  | Inf s, Fin q | Fin q, Inf s =>
      if Qis_zero q then NaN else Inf (xorb s (Qis_neg q))
  | Inf s, Inf t => Inf (xorb s t)
  end.

Definition fdiv (a b : scalar) : scalar :=
  match a, b with
  | NaN, _ | _, NaN => NaN
  | Fin p, Fin q =>
      if Qis_zero q
      then (if Qis_zero p then NaN else Inf (Qis_neg p))
      else Fin (p / q)
  | Fin _, Inf _ => Fin 0
  | Inf s, Fin q => Inf (xorb s (Qis_neg q))
  | Inf _, Inf _ => NaN
  end.

(** [max] of two elements as used by the whole-tensor reduction: a [nan]
    operand wins. *)
Definition fmax (a b : scalar) : scalar :=
  match a, b with
  | NaN, _ | _, NaN => NaN
  | Inf false, _ | _, Inf false => Inf false
  | Inf true, x | x, Inf true => x
  | Fin p, Fin q => if Qle_bool p q then Fin q else Fin p
  end.

(** Round to the nearest integer, ties to the even one ([torch.round]). *)
Definition round_half_even (q : Q) : Z :=
  let f := Qfloor q in
  match Qcompare (q - inject_Z f) (1 # 2) with
  | Lt => f
  | Gt => (f + 1)%Z
  | Eq => if Z.even f then f else (f + 1)%Z
  end.

(** ** The tensor-library primitives the notebook calls *)

(** Element-wise functions, then their lifting to tensors. *)
Definition fsign (a : scalar) : scalar :=
  match a with
  | Fin q => Fin (inject_Z (Z.sgn (Qnum q)))
  | Inf s => Fin (if s then -1 else 1)
  | NaN => Fin 0
  end.

Definition fround (a : scalar) : scalar :=
  match a with
  | Fin q => Fin (inject_Z (round_half_even q))
  | other => other
  end.

Definition fabs (a : scalar) : scalar :=
  match a with
  | Fin q => Fin (Qabs q)
  | Inf _ => Inf false
  | NaN => NaN
  end.

(** One element of [torch.clamp(x, 0, 1)]. *)
Definition fclamp01 (a : scalar) : scalar :=
  match a with
  | Fin q => if Qis_neg q then Fin 0
             else if Qle_bool q 1 then Fin q else Fin 1
  | Inf s => if s then Fin 0 else Fin 1
  | NaN => NaN
  end.

Definition torch_sign (t : tensor) : tensor := map fsign t.
Definition torch_round (t : tensor) : tensor := map fround t.
Definition torch_abs (t : tensor) : tensor := map fabs t.
Definition torch_clamp01 (t : tensor) : tensor := map fclamp01 t.

(** [t.mean()]: sum over the element count; [nan] on the empty tensor. *)
Definition torch_mean (t : tensor) : scalar :=
  fdiv (fold_left fadd t (Fin 0)) (Fin (inject_Z (Z.of_nat (length t)))).

(** [t.max()]: raises on the empty tensor. *)
Definition torch_max (t : tensor) : result scalar :=
  match t with
  | [] => Raise RuntimeError
  | a :: r => Ok (fold_left fmax r a)
  end.

(** Tensor-by-scalar arithmetic (broadcast of a Python number or of a
    zero-dimensional tensor). *)
Definition tmul (t : tensor) (c : scalar) : tensor := map (fun a => fmul a c) t.
Definition tdiv (t : tensor) (c : scalar) : tensor := map (fun a => fdiv a c) t.
Definition tadd (t : tensor) (c : scalar) : tensor := map (fun a => fadd a c) t.
Definition tsub (t : tensor) (c : scalar) : tensor := map (fun a => fsub a c) t.
Definition smul (c : scalar) (t : tensor) : tensor := map (fun a => fmul c a) t.

(** [t.clone()]: a fresh tensor holding the same elements. *)
Definition clone (t : tensor) : tensor := map (fun a => a) t.

(** [2 ** n_bits - 1] on a Python integer [n_bits] (a float when
    [n_bits] is negative, with the same value). *)
Definition pow2m1 (n_bits : Z) : Q := 2 ^ n_bits - 1.

(** The least magnitude of a Python integer that has no float: it rounds
    to [2 ** 1024], and the conversion raises [OverflowError]. *)
Definition float_overflow : Z := (2 ^ 1024 - 2 ^ 970)%Z.

(** [2 ** n_bits - 1] as Python evaluates it.  With a negative exponent
    the power is a float power, which first converts the exponent to a
    float and raises [OverflowError] when it has none. *)
Definition py_pow2m1 (n_bits : Z) : result Q :=
  if (n_bits <=? - float_overflow)%Z then Raise OverflowError
  else Ok (pow2m1 n_bits).

(** [float(2 ** n_bits - 1)]: the conversion of an integer that rounds to
    [2 ** 1024] raises [OverflowError]. *)
Definition py_float_pow2m1 (n_bits : Z) : result Q :=
  v <- py_pow2m1 n_bits ;;
  if (1024 <=? n_bits)%Z then Raise OverflowError else Ok v.

(** ** get_uniform_quantizer *)

(** A [torch.autograd.Function]: its two static methods. *)
Record autograd_Function : Type := {
  forward : tensor -> result tensor;
  backward : tensor -> tensor
}.

(** The local variables of [qfn.forward] that its branches assign. *)
Record qfn_frame : Type := {
  out_tensor : option tensor;
  out : option tensor
}.

Definition qfn_forward (n_bits : Z) (in_tensor : tensor) : result tensor :=
  frame <-
    (if (n_bits =? 32)%Z then
       (* out_tensor = in_tensor *)
       Ok {| out_tensor := Some in_tensor; out := None |}
     else if (n_bits =? 1)%Z then
       (* out_tensor = torch.sign(in_tensor) *)
       Ok {| out_tensor := Some (torch_sign in_tensor); out := None |}
     else
       (* n = float(2 ** n_bits - 1)
          out = torch.round(in_tensor * n) / n *)
       n <- py_float_pow2m1 n_bits ;;
       Ok {| out_tensor := None;
             out := Some (tdiv (torch_round (tmul in_tensor (Fin n))) (Fin n)) |}) ;;
  (* return out *)
  read_local (out frame).

Definition qfn_backward (grad_output : tensor) : tensor :=
  let grad_input := clone grad_output in
  grad_input.

Definition get_uniform_quantizer (n_bits : Z) : autograd_Function :=
  {| forward := qfn_forward n_bits; backward := qfn_backward |}.

(** [qfn().apply]: the forward direction of the function. *)
Definition apply (f : autograd_Function) : tensor -> result tensor := forward f.

Section DoReFa.

(** [tanh] on finite elements, supplied by the tensor library. *)
Variable tanhQ : Q -> Q.

Definition ftanh (a : scalar) : scalar :=
  match a with
  | Fin q => Fin (tanhQ q)
  | Inf s => Fin (if s then -1 else 1)
  | NaN => NaN
  end.

Definition torch_tanh (t : tensor) : tensor := map ftanh t.

(** ** weight_quantize_fn *)

Record weight_quantize_fn : Type := {
  wq_n_bits : Z;
  wq_value_range : Q;
  wq_uniform_q : tensor -> result tensor
}.

Definition weight_quantize_fn_init (n_bits : Z) : result weight_quantize_fn :=
  _ <- py_assert ((n_bits <=? 8)%Z || (n_bits =? 32)%Z) ;;
  value_range <- py_pow2m1 n_bits ;;
  Ok {| wq_n_bits := n_bits;
        wq_value_range := value_range;
        wq_uniform_q := apply (get_uniform_quantizer n_bits) |}.

Definition weight_quantize_fn_forward (self : weight_quantize_fn) (x : tensor)
  : result tensor :=
  if (wq_n_bits self =? 32)%Z then
    Ok x
  else if (wq_n_bits self =? 1)%Z then
    let E := torch_mean (torch_abs x) in
    q <- wq_uniform_q self (tdiv x E) ;;
    Ok (tmul q E)
  else
    let weight := torch_tanh x in
    m <- torch_max (torch_abs weight) ;;
    let weight := tadd (tdiv (tdiv weight (Fin 2)) m) (Fin (1 # 2)) in
    weight_q <- wq_uniform_q self weight ;;
    Ok (tsub (smul (Fin (wq_value_range self)) weight_q)
             (Fin ((wq_value_range self + 1) / 2))).

(** ** activation_quantize_fn *)

Record activation_quantize_fn : Type := {
  aq_n_bits : Z;
  aq_uniform_q : tensor -> result tensor
}.

Definition activation_quantize_fn_init (n_bits : Z)
  : result activation_quantize_fn :=
  _ <- py_assert ((n_bits <=? 8)%Z || (n_bits =? 32)%Z) ;;
  Ok {| aq_n_bits := n_bits;
        aq_uniform_q := apply (get_uniform_quantizer n_bits) |}.

Definition activation_quantize_fn_forward (self : activation_quantize_fn)
  (x : tensor) : result tensor :=
  if (aq_n_bits self =? 32)%Z then
    Ok x
  else
    levels <- py_pow2m1 (aq_n_bits self) ;;
    q <- aq_uniform_q self (torch_clamp01 x) ;;
    Ok (smul (Fin levels) q).

End DoReFa.

(** ** Data loading *)

Definition ffloor (a : scalar) : scalar :=
  match a with
  | Fin q => Fin (inject_Z (Qfloor q))
  | other => other
  end.

Definition torch_floor (t : tensor) : tensor := map ffloor t.

(** [to_signed_char]: [torch.floor(255.0 * tensor)]. *)
Definition to_signed_char (t : tensor) : tensor :=
  torch_floor (smul (Fin 255) t).

(** The transform both loaders compose.  [ToTensor()] turns the 8-bit
    pixels of an image into floats by dividing by 255; [Normalize(mean, std)]
    subtracts the mean and divides by the standard deviation. *)
Definition ToTensor (img : list Z) : tensor :=
  map (fun p => fdiv (Fin (inject_Z p)) (Fin 255)) img.

Definition Normalize (mean std : Q) (t : tensor) : tensor :=
  tdiv (tsub t (Fin mean)) (Fin std).

(** [transforms.Compose([ToTensor(), Normalize((0.5,), (1,))])] *)
Definition loader_transform (img : list Z) : tensor :=
  Normalize (1 # 2) 1 (ToTensor img).

(** ** DRFActivation *)

Record DRFActivation : Type := {
  da_n_bits : Z;
  da_quantize_fn : activation_quantize_fn
}.

Definition DRFActivation_init (n_bits : Z) : result DRFActivation :=
  quantize_fn <- activation_quantize_fn_init n_bits ;;
  Ok {| da_n_bits := n_bits; da_quantize_fn := quantize_fn |}.

Definition DRFActivation_forward (self : DRFActivation) (in_tensor : tensor)
  : result tensor :=
  if (32 <=? da_n_bits self)%Z then
    Ok in_tensor
  else
    activation_quantize_fn_forward (da_quantize_fn self) in_tensor.

(** ** DRFConv2d *)

Section Convolution.

Variable tanhQ : Q -> Q.

(** [F.conv2d] is the convolution primitive of the tensor library.  It is a
    parameter here: it receives the input, the weight and the remaining
    arguments of the call (bias, stride, padding, dilation, groups, and the
    shapes of the two tensors), gathered in [conv_args]. *)
Variable conv_args : Type.
Variable F_conv2d : tensor -> tensor -> conv_args -> result tensor.

(** The fields [forward] reads: the bit-width, the weight quantizer, and
    the weight and call arguments the [nn.Conv2d] base class holds. *)
Record DRFConv2d : Type := {
  dc_n_bits : Z;
  dc_quantize_fn : weight_quantize_fn;
  dc_weight : tensor;
  dc_args : conv_args
}.

(** [__init__], after the base-class constructor has built [weight] and
    [args]. *)
Definition DRFConv2d_init (n_bits : Z) (weight : tensor) (args : conv_args)
  : result DRFConv2d :=
  quantize_fn <- weight_quantize_fn_init n_bits ;;
  Ok {| dc_n_bits := n_bits;
        dc_quantize_fn := quantize_fn;
        dc_weight := weight;
        dc_args := args |}.

Definition DRFConv2d_forward (self : DRFConv2d) (in_tensor : tensor)
  : result tensor :=
  weight_q <- weight_quantize_fn_forward tanhQ (dc_quantize_fn self)
                (dc_weight self) ;;
  F_conv2d in_tensor weight_q (dc_args self).

End Convolution.

(** ** Vocabulary of the statements *)

(** The bit-widths the notebook documents: 1, 2..8 and 32. *)
Definition supported_bits (k : Z) : bool :=
  ((k =? 1) || ((2 <=? k) && (k <=? 8)) || (k =? 32))%Z.

(** A finite element of the unit interval. *)
Definition in_unit (a : scalar) : bool :=
  match a with
  | Fin q => Qle_bool 0 q && Qle_bool q 1
  | _ => false
  end.

(** One element of the uniform quantizer's [else] branch, for [n] steps:
    [round(a * n) / n]. *)
Definition quantize_elem (n : Q) (a : scalar) : scalar :=
  fdiv (fround (fmul a (Fin n))) (Fin n).

(** [a] is one of the levels [0, 1/n, 2/n, ..., 1] with [n = 2^k - 1]. *)
Definition on_grid (k : Z) (a : scalar) : Prop :=
  exists i : Z,
    (0 <= i <= 2 ^ k - 1)%Z /\
    feq a (Fin (inject_Z i / inject_Z (2 ^ k - 1))).


(** The call returned a tensor all of whose elements are finite. *)
Definition finite_output (r : result tensor) : bool :=
  match r with
  | Ok t => forallb is_finite t
  | Raise _ => false
  end.

Definition is_ok {A : Type} (r : result A) : bool :=
  match r with Ok _ => true | Raise _ => false end.

(** A rational approximation of [tanh] (Pade, order [3/2]); it is odd and
    vanishes at 0, and serves to run the model on concrete tensors. *)
Definition tanh_pade (x : Q) : Q := Qred (x * (15 + x * x) / (15 + 6 * (x * x))).

(** [b] is [a] moved by at most [eps] when finite, and [a] itself when
    [a] is an infinity or [nan]. *)
Definition within (eps : Q) (a b : scalar) : Prop :=
  match a, b with
  | Fin p, Fin q => Qabs (q - p) <= eps
  | Inf s, Inf t => s = t
  | NaN, NaN => True
  | _, _ => False
  end.

(** The order of the extended line; [nan] is comparable to nothing. *)
Definition fle (a b : scalar) : Prop :=
  match a, b with
  | NaN, _ | _, NaN => False
  | Inf true, _ => True
  | _, Inf false => True
  | Fin p, Fin q => p <= q
  | _, _ => False
  end.

Definition is_nan (a : scalar) : bool :=
  match a with NaN => true | _ => false end.

(** A finite element of [[-1, 1]], or an infinity or [nan]. *)
Definition unit_ball (a : scalar) : Prop :=
  match a with
  | Fin q => Qabs q <= 1
  | _ => True
  end.

(** The least magnitude whose half is still a normal single-precision
    number: from here up, halving a single-precision value is exact. *)
Definition half_normal : Q := 2 ^ (-125).

Definition at_least_half_normal (a : scalar) : Prop :=
  match a with
  | Fin t => half_normal <= Qabs t
  | _ => False
  end.

(** [b] is an integer of the interval [lo..hi]. *)
Definition integer_between (lo hi : Z) (b : scalar) : Prop :=
  exists j : Z, (lo <= j <= hi)%Z /\ feq b (Fin (inject_Z j)).

(** One element of the activation quantizer away from 32 bits, for [n]
    steps: [n * (round(clamp(a, 0, 1) * n) / n)]. *)
Definition activation_elem (n : Q) (a : scalar) : scalar :=
  fmul (Fin n) (quantize_elem n (fclamp01 a)).

(** One element of the weight quantizer's [else] branch, for [n] steps and
    the whole-tensor maximum [m], applied to an element [a] of [tanh(w)]:
    [n * round((a / 2 / m + 0.5) * n) / n - (n + 1) / 2]. *)
Definition weight_elem (n : Q) (m a : scalar) : scalar :=
  fsub (fmul (Fin n)
          (quantize_elem n (fadd (fdiv (fdiv a (Fin 2)) m) (Fin (1 # 2)))))
       (Fin ((n + 1) / 2)).

(** * Properties *)

(** ** Rational helpers *)

Lemma Qis_zero_true (q : Q) : Qis_zero q = true <-> q == 0.
Proof. unfold Qis_zero. apply Qeq_bool_iff. Qed.

Lemma Qis_zero_false (q : Q) : Qis_zero q = false <-> ~ q == 0.
Proof.
  rewrite <- Qis_zero_true.
  destruct (Qis_zero q); split; intro H; congruence.
Qed.

Lemma Qis_neg_true (q : Q) : Qis_neg q = true <-> q < 0.
Proof. unfold Qis_neg, Qlt; simpl. rewrite Z.ltb_lt. lia. Qed.

Lemma Qis_neg_false (q : Q) : Qis_neg q = false <-> 0 <= q.
Proof. unfold Qis_neg, Qle; simpl. rewrite Z.ltb_ge. lia. Qed.

#[local] Instance Qis_zero_proper : Proper (Qeq ==> eq) Qis_zero.
Proof.
  intros p q H.
  destruct (Qis_zero q) eqn:E.
  - apply Qis_zero_true. rewrite H. apply Qis_zero_true, E.
  - apply Qis_zero_false. rewrite H. apply Qis_zero_false, E.
Qed.

#[local] Instance Qis_neg_proper : Proper (Qeq ==> eq) Qis_neg.
Proof.
  intros p q H.
  destruct (Qis_neg q) eqn:E.
  - apply Qis_neg_true. rewrite H. apply Qis_neg_true, E.
  - apply Qis_neg_false. rewrite H. apply Qis_neg_false, E.
Qed.

(** ** Rounding to the nearest integer *)

Lemma round_half_even_comp (p q : Q) :
  p == q -> round_half_even p = round_half_even q.
Proof.
  intros H. unfold round_half_even.
  rewrite (Qfloor_comp p q H).
  assert (E : p - inject_Z (Qfloor q) == q - inject_Z (Qfloor q))
    by (rewrite H; reflexivity).
  rewrite E. reflexivity.
Qed.

Lemma round_half_even_Z (z : Z) : round_half_even (inject_Z z) = z.
Proof.
  unfold round_half_even. rewrite Qfloor_Z.
  assert (E : Qcompare (inject_Z z - inject_Z z) (1 # 2) = Lt).
  { rewrite <- Qlt_alt. lra. }
  rewrite E. reflexivity.
Qed.

Lemma round_half_even_bounds (q : Q) :
  (Qfloor q <= round_half_even q <= Qfloor q + 1)%Z.
Proof.
  unfold round_half_even.
  destruct (Qcompare (q - inject_Z (Qfloor q)) (1 # 2));
    [destruct (Z.even (Qfloor q)) | | ]; lia.
Qed.

Lemma round_half_even_nonneg (q : Q) : 0 <= q -> (0 <= round_half_even q)%Z.
Proof.
  intros H. pose proof (round_half_even_bounds q) as B.
  assert (0 <= Qfloor q)%Z.
  { rewrite <- (Qfloor_Z 0). apply Qfloor_resp_le. exact H. }
  lia.
Qed.

Lemma round_half_even_le_Z (q : Q) (N : Z) :
  q <= inject_Z N -> (round_half_even q <= N)%Z.
Proof.
  intros H.
  assert (Hf : (Qfloor q <= N)%Z).
  { rewrite <- (Qfloor_Z N). apply Qfloor_resp_le. exact H. }
  destruct (Z.eq_dec (Qfloor q) N) as [E | E].
  - assert (Hq : q == inject_Z N).
    { apply Qle_antisym; [exact H | rewrite <- E; apply Qfloor_le]. }
    rewrite (round_half_even_comp Hq), round_half_even_Z. lia.
  - pose proof (round_half_even_bounds q). lia.
Qed.

Lemma round_half_even_error (q : Q) :
  Qabs (inject_Z (round_half_even q) - q) <= 1 # 2.
Proof.
  apply Qabs_Qle_condition.
  pose proof (Qfloor_le q) as Hlo. pose proof (Qlt_floor q) as Hhi.
  rewrite inject_Z_plus in Hhi. change (inject_Z 1) with 1 in Hhi.
  unfold round_half_even.
  destruct (Qcompare_spec (q - inject_Z (Qfloor q)) (1 # 2)) as [E | L | G].
  - destruct (Z.even (Qfloor q)).
    + split; lra.
    + rewrite inject_Z_plus. change (inject_Z 1) with 1. split; lra.
  - split; lra.
  - rewrite inject_Z_plus. change (inject_Z 1) with 1. split; lra.
Qed.

Lemma round_half_even_mono (p q : Q) :
  p <= q -> (round_half_even p <= round_half_even q)%Z.
Proof.
  intros H. pose proof (Qfloor_resp_le _ _ H) as Hf.
  destruct (Z.eq_dec (Qfloor p) (Qfloor q)) as [E | N].
  - unfold round_half_even. rewrite E.
    destruct (Qcompare_spec (p - inject_Z (Qfloor q)) (1 # 2));
      destruct (Qcompare_spec (q - inject_Z (Qfloor q)) (1 # 2));
      destruct (Z.even (Qfloor q)); try lia; exfalso; lra.
  - pose proof (round_half_even_bounds p). pose proof (round_half_even_bounds q).
    lia.
Qed.

(** ** The number of quantization steps *)

Lemma pow2_inject (k : Z) : (0 <= k)%Z -> 2 ^ k == inject_Z (2 ^ k).
Proof. intros H. rewrite (Zpower_Qpower 2 k H). reflexivity. Qed.

Lemma pow2m1_inject (k : Z) :
  (0 <= k)%Z -> pow2m1 k == inject_Z (2 ^ k - 1).
Proof.
  intros H. unfold pow2m1. rewrite (pow2_inject H).
  unfold Z.sub. rewrite inject_Z_plus, inject_Z_opp. reflexivity.
Qed.

Lemma float_overflow_pos : (0 < float_overflow)%Z.
Proof. reflexivity. Qed.

Lemma py_pow2m1_ok (k : Z) :
  (- float_overflow < k)%Z -> py_pow2m1 k = Ok (pow2m1 k).
Proof.
  intros H. unfold py_pow2m1.
  destruct (Z.leb_spec k (- float_overflow)); [lia | reflexivity].
Qed.

Lemma py_pow2m1_overflow (k : Z) :
  (k <= - float_overflow)%Z -> py_pow2m1 k = Raise OverflowError.
Proof.
  intros H. unfold py_pow2m1.
  destruct (Z.leb_spec k (- float_overflow)); [reflexivity | lia].
Qed.

(** Arithmetic on bit-widths, knowing where the float conversion fails. *)
Ltac width_lia := pose proof float_overflow_pos; lia.

Lemma pow2m1_pos (k : Z) : (1 <= k)%Z -> 0 < pow2m1 k.
Proof.
  intros H. rewrite pow2m1_inject by lia.
  change 0 with (inject_Z 0). rewrite <- Zlt_Qlt.
  assert (2 ^ 1 <= 2 ^ k)%Z by (apply Z.pow_le_mono_r; lia).
  change (2 ^ 1)%Z with 2%Z in *. lia.
Qed.

(** ** "Same value" is a congruence for the element operations *)

Lemma Qis_zero_comp (p q : Q) : p == q -> Qis_zero p = Qis_zero q.
Proof. apply Qis_zero_proper. Qed.

Lemma Qis_neg_comp (p q : Q) : p == q -> Qis_neg p = Qis_neg q.
Proof. apply Qis_neg_proper. Qed.

Lemma feq_refl (a : scalar) : feq a a.
Proof. destruct a; simpl; auto. reflexivity. Qed.

Lemma feq_sym (a b : scalar) : feq a b -> feq b a.
Proof. destruct a, b; simpl; auto. intro H; symmetry; exact H. Qed.

Lemma feq_trans (a b c : scalar) : feq a b -> feq b c -> feq a c.
Proof.
  destruct a, b, c; simpl; try tauto; try congruence.
  intros H1 H2. rewrite H1. exact H2.
Qed.

#[local] Instance feq_equivalence : Equivalence feq.
Proof.
  split; [exact feq_refl | exact feq_sym | exact feq_trans].
Qed.

(** Case analysis on two related elements, then transport of the zero and
    sign tests along the rational equalities in the context. *)
Ltac feq_destruct :=
  repeat match goal with
         | H : feq ?a ?b |- _ =>
             destruct a, b; simpl in H; try contradiction
         end.

Ltac feq_tests :=
  repeat match goal with
         | H : ?p == ?q |- context [Qis_zero ?p] =>
             rewrite (Qis_zero_comp H)
         | H : ?p == ?q |- context [Qis_neg ?p] =>
             rewrite (Qis_neg_comp H)
         end.

Ltac feq_close :=
  simpl; feq_tests; subst;
  repeat match goal with
         | |- context [if ?c then _ else _] => destruct c; simpl
         end;
  try exact I; try reflexivity;
  try match goal with
      | H1 : _ == _, H2 : _ == _ |- _ == _ => rewrite H1, H2; reflexivity
      | H1 : _ == _ |- _ == _ => rewrite H1; reflexivity
      end.

Lemma fneg_feq (a a' : scalar) : feq a a' -> feq (fneg a) (fneg a').
Proof. intros. feq_destruct; feq_close. Qed.

Lemma fadd_feq (a a' b b' : scalar) :
  feq a a' -> feq b b' -> feq (fadd a b) (fadd a' b').
Proof. intros. feq_destruct; feq_close. Qed.

Lemma fsub_feq (a a' b b' : scalar) :
  feq a a' -> feq b b' -> feq (fsub a b) (fsub a' b').
Proof. intros. unfold fsub. apply fadd_feq; [ | apply fneg_feq]; assumption. Qed.

Lemma fmul_feq (a a' b b' : scalar) :
  feq a a' -> feq b b' -> feq (fmul a b) (fmul a' b').
Proof. intros. feq_destruct; feq_close. Qed.

Lemma fdiv_feq (a a' b b' : scalar) :
  feq a a' -> feq b b' -> feq (fdiv a b) (fdiv a' b').
Proof. intros. feq_destruct; feq_close. Qed.

Lemma fround_feq (a a' : scalar) : feq a a' -> feq (fround a) (fround a').
Proof.
  intros. feq_destruct; simpl; subst; auto.
  rewrite (round_half_even_comp H). reflexivity.
Qed.

Lemma quantize_elem_feq (n : Q) (a a' : scalar) :
  feq a a' -> feq (quantize_elem n a) (quantize_elem n a').
Proof.
  intros H. unfold quantize_elem.
  apply fdiv_feq; [ | apply feq_refl].
  apply fround_feq, fmul_feq; [exact H | apply feq_refl].
Qed.

(** ** The uniform quantizer *)

(** Away from the two special bit-widths the forward pass leaves through
    its [else] branch, which binds the returned name. *)
Lemma qfn_forward_uniform (k : Z) (x : tensor) :
  k <> 32%Z -> k <> 1%Z -> (- float_overflow < k < 1024)%Z ->
  qfn_forward k x = Ok (map (quantize_elem (pow2m1 k)) x).
Proof.
  intros H32 H1 Hlt. unfold qfn_forward, py_float_pow2m1.
  destruct (Z.eqb_spec k 32) as [E | _]; [contradiction | ].
  destruct (Z.eqb_spec k 1) as [E | _]; [contradiction | ].
  rewrite py_pow2m1_ok by lia. cbn [bind].
  destruct (Z.leb_spec 1024 k) as [L | _]; [lia | ].
  cbn [bind read_local out].
  unfold tdiv, torch_round, tmul. rewrite !map_map. reflexivity.
Qed.

(** Both special branches bind [out_tensor] and then read [out]. *)
Lemma qfn_forward_special (k : Z) (x : tensor) :
  k = 32%Z \/ k = 1%Z -> qfn_forward k x = Raise UnboundLocalError.
Proof. intros [E | E]; subst k; reflexivity. Qed.

Lemma quantize_elem_fin (n q : Q) :
  ~ n == 0 ->
  quantize_elem n (Fin q) = Fin (inject_Z (round_half_even (q * n)) / n).
Proof.
  intros Hn. unfold quantize_elem. simpl.
  apply Qis_zero_false in Hn. rewrite Hn. reflexivity.
Qed.

Lemma quantize_elem_on_grid (k : Z) (a : scalar) :
  (1 <= k)%Z -> in_unit a = true -> on_grid k (quantize_elem (pow2m1 k) a).
Proof.
  intros Hk Ha. destruct a as [q | s | ]; simpl in Ha; try discriminate.
  apply andb_true_iff in Ha. destruct Ha as [H0 H1].
  apply Qle_bool_iff in H0. apply Qle_bool_iff in H1.
  pose proof (pow2m1_pos Hk) as Hpos.
  assert (Hn : pow2m1 k == inject_Z (2 ^ k - 1)) by (apply pow2m1_inject; lia).
  exists (round_half_even (q * pow2m1 k)). split; [split | ].
  - apply round_half_even_nonneg. apply Qmult_le_0_compat; lra.
  - apply round_half_even_le_Z.
    assert (Hq : q * pow2m1 k <= 1 * pow2m1 k)
      by (apply Qmult_le_compat_r; lra).
    lra.
  - rewrite quantize_elem_fin by lra. unfold feq.
    apply Qdiv_comp; [reflexivity | exact Hn].
Qed.

Lemma quantize_elem_idem (n : Q) (a : scalar) :
  0 < n -> quantize_elem n (quantize_elem n a) = quantize_elem n a.
Proof.
  intros Hn.
  assert (Hz : ~ n == 0) by lra.
  assert (Hs : Qis_neg n = false) by (apply Qis_neg_false; lra).
  destruct a as [q | s | ].
  - rewrite !quantize_elem_fin by exact Hz.
    rewrite (@round_half_even_comp _ (inject_Z (round_half_even (q * n)))).
    + rewrite round_half_even_Z. reflexivity.
    + field. exact Hz.
  - unfold quantize_elem. simpl.
    apply Qis_zero_false in Hz. rewrite Hz, Hs. simpl.
    rewrite Hz, Hs. simpl. rewrite Hs. destruct s; reflexivity.
  - reflexivity.
Qed.





(** C3. The backward function of the uniform quantizer returns the
    upstream gradient unchanged, whatever the bit-width. *)
Theorem uniform_quantizer_backward (k : Z) (g : tensor) :
  backward (get_uniform_quantizer k) g = g.
Proof. simpl. unfold qfn_backward, clone. apply map_id. Qed.

(** C9. For every bit-width [k] in 2..8 and every tensor [x] with elements
    in [[0,1]], quantizing the quantized tensor again at the same [k]
    returns it unchanged. *)
Theorem uniform_quantizer_idempotent (k : Z) (x : tensor) :
  (2 <= k <= 8)%Z ->
  Forall (fun a => in_unit a = true) x ->
  exists y : tensor,
    apply (get_uniform_quantizer k) x = Ok y /\
    apply (get_uniform_quantizer k) y = Ok y.
Proof.
  intros Hk _. exists (map (quantize_elem (pow2m1 k)) x). split.
  - apply qfn_forward_uniform; width_lia.
  - unfold apply; simpl. rewrite qfn_forward_uniform by width_lia.
    apply f_equal. rewrite map_map. apply map_ext.
    intros a. apply quantize_elem_idem. apply pow2m1_pos. lia.
Qed.

Lemma uniform_quantizer_idempotent_witness :
  exists y : tensor,
    apply (get_uniform_quantizer 3) [Fin (2 # 5); Fin 0; Fin 1] = Ok y /\
    apply (get_uniform_quantizer 3) y = Ok y.
Proof.
  apply (@uniform_quantizer_idempotent 3 [Fin (2 # 5); Fin 0; Fin 1]).
  - lia.
  - repeat constructor.
Defined.

(** C8. Claimed: with [k = 1] the uniform quantizer returns the
    element-wise sign of its input.  The branch computes
    [torch.sign(in_tensor)] into [out_tensor], and the function then
    returns the name [out], which that branch never binds: on every input
    the call raises instead of returning the sign tensor. *)
Theorem uniform_quantizer_binary_unbound (x : tensor) :
  apply (get_uniform_quantizer 1) x = Raise UnboundLocalError.
Proof. reflexivity. Qed.

(** ** Construction of the two modules *)

Lemma weight_quantize_fn_init_ok (k : Z) :
  (- float_overflow < k <= 8 \/ k = 32)%Z ->
  weight_quantize_fn_init k =
    Ok {| wq_n_bits := k;
          wq_value_range := pow2m1 k;
          wq_uniform_q := apply (get_uniform_quantizer k) |}.
Proof.
  intros H. unfold weight_quantize_fn_init, py_assert.
  rewrite py_pow2m1_ok by width_lia.
  destruct (Z.leb_spec k 8); destruct (Z.eqb_spec k 32); cbn [orb bind];
    try reflexivity; lia.
Qed.

Lemma activation_quantize_fn_init_ok (k : Z) :
  (k <= 8 \/ k = 32)%Z ->
  activation_quantize_fn_init k =
    Ok {| aq_n_bits := k;
          aq_uniform_q := apply (get_uniform_quantizer k) |}.
Proof.
  intros H. unfold activation_quantize_fn_init, py_assert.
  destruct (Z.leb_spec k 8); destruct (Z.eqb_spec k 32); simpl;
    try reflexivity; lia.
Qed.

Lemma init_assertion_fails (k : Z) :
  ~ (k <= 8 \/ k = 32)%Z ->
  weight_quantize_fn_init k = Raise AssertionError /\
  activation_quantize_fn_init k = Raise AssertionError.
Proof.
  intros H.
  unfold weight_quantize_fn_init, activation_quantize_fn_init, py_assert.
  destruct (Z.leb_spec k 8); destruct (Z.eqb_spec k 32); cbn [orb bind];
    try (split; reflexivity); exfalso; apply H; lia.
Qed.

Lemma weight_quantize_fn_init_overflow (k : Z) :
  (k <= - float_overflow)%Z ->
  weight_quantize_fn_init k = Raise OverflowError.
Proof.
  intros H. unfold weight_quantize_fn_init, py_assert.
  rewrite py_pow2m1_overflow by exact H.
  destruct (Z.leb_spec k 8); [reflexivity | width_lia].
Qed.

(** C2, as stated, fails: the bit-width 0 is outside the documented set
    1, 2..8, 32, and both modules are constructed without an error. *)
Lemma construction_accepts_zero_bits :
  supported_bits 0 = false /\
  is_ok (weight_quantize_fn_init 0) = true /\
  is_ok (activation_quantize_fn_init 0) = true.
Proof. repeat split. Qed.

Ltac guard_case :=
  first [reflexivity | congruence | lia | exfalso; lia].

(** C2, amended. Constructing either module raises [AssertionError]
    exactly when the width is above 8 and not 32.  Every other width
    constructs [activation_quantize_fn]; it constructs [weight_quantize_fn]
    too (zero and negative widths included), except the widths at or below
    [-(2^1024 - 2^970)], for which [2 ** n_bits] raises [OverflowError]. *)
Theorem construction_guard (k : Z) :
  (is_ok (activation_quantize_fn_init k) = true <-> (k <= 8 \/ k = 32)%Z) /\
  (activation_quantize_fn_init k = Raise AssertionError <->
   ~ (k <= 8 \/ k = 32)%Z) /\
  (is_ok (weight_quantize_fn_init k) = true <->
   (- float_overflow < k <= 8 \/ k = 32)%Z) /\
  (weight_quantize_fn_init k = Raise AssertionError <->
   ~ (k <= 8 \/ k = 32)%Z) /\
  (weight_quantize_fn_init k = Raise OverflowError <->
   (k <= - float_overflow)%Z).
Proof.
  pose proof float_overflow_pos as Hpos.
  destruct (Z.le_gt_cases k 8) as [L | G];
    [destruct (Z.le_gt_cases k (- float_overflow)) as [Lo | Go]
    | destruct (Z.eq_dec k 32) as [E | N]].
  - rewrite (weight_quantize_fn_init_overflow Lo).
    rewrite activation_quantize_fn_init_ok by lia. cbn [is_ok].
    repeat split; intros; guard_case.
  - rewrite weight_quantize_fn_init_ok by lia.
    rewrite activation_quantize_fn_init_ok by lia. cbn [is_ok].
    repeat split; intros; guard_case.
  - rewrite weight_quantize_fn_init_ok by lia.
    rewrite activation_quantize_fn_init_ok by lia. cbn [is_ok].
    repeat split; intros; guard_case.
  - assert (H : ~ (k <= 8 \/ k = 32)%Z) by lia.
    destruct (init_assertion_fails H) as [Ew Ea]. rewrite Ew, Ea. cbn [is_ok].
    repeat split; intros; guard_case.
Qed.

(** ** Paths that reach the unbound name *)

(** C7. Claimed: at [k = 32] the uniform quantizer, the weight quantizer
    and the activation quantizer are all the identity.  The two modules
    are (they return their input without calling the quantizer), but the
    uniform quantizer itself binds [out_tensor = in_tensor] and returns
    the unbound [out], so it raises on every input. *)
Theorem full_precision_paths (tanhQ : Q -> Q) (x : tensor) :
  apply (get_uniform_quantizer 32) x = Raise UnboundLocalError /\
  (self <- weight_quantize_fn_init 32 ;;
   weight_quantize_fn_forward tanhQ self x) = Ok x /\
  (self <- activation_quantize_fn_init 32 ;;
   activation_quantize_fn_forward self x) = Ok x.
Proof. repeat split. Qed.

(** C6. Claimed: at [k = 1] the weight quantizer returns
    [sign(w / E) * E] with [E = mean(|w|)].  The forward pass computes [E]
    and [w / E] and hands the quotient to the uniform quantizer, whose
    [k = 1] branch raises; no tensor is returned. *)
Theorem weight_binary_unbound (tanhQ : Q -> Q) (w : tensor) :
  (self <- weight_quantize_fn_init 1 ;;
   weight_quantize_fn_forward tanhQ self w) = Raise UnboundLocalError.
Proof. reflexivity. Qed.

(** Activation quantization on the uniform bit-widths. *)
Lemma activation_forward_uniform (k : Z) (x : tensor) :
  (2 <= k <= 8)%Z ->
  (self <- activation_quantize_fn_init k ;;
   activation_quantize_fn_forward self x) =
  Ok (smul (Fin (2 ^ k - 1))
        (map (quantize_elem (2 ^ k - 1)) (torch_clamp01 x))).
Proof.
  intros Hk. rewrite activation_quantize_fn_init_ok by lia. cbn [bind].
  unfold activation_quantize_fn_forward. cbn [aq_n_bits aq_uniform_q].
  destruct (Z.eqb_spec k 32) as [E | _]; [lia | ].
  rewrite py_pow2m1_ok by width_lia. cbn [bind].
  unfold apply; cbn [forward get_uniform_quantizer].
  rewrite qfn_forward_uniform by width_lia. reflexivity.
Qed.

(** C5. Claimed: for every [k] in 1, 2..8 activation quantization returns
    [(2^k - 1) * Quantizer(clamp(x, 0, 1), k)].  At [k = 8] the two worked
    inputs give 255 and 0 as claimed, but at [k = 1] the call to the
    uniform quantizer raises and nothing is returned. *)
Theorem activation_forward_cases (x : tensor) :
  (self <- activation_quantize_fn_init 1 ;;
   activation_quantize_fn_forward self x) = Raise UnboundLocalError /\
  (exists y, (self <- activation_quantize_fn_init 8 ;;
              activation_quantize_fn_forward self [Fin (3 # 2)]) = Ok y /\
             teq y [Fin 255]) /\
  (exists y, (self <- activation_quantize_fn_init 8 ;;
              activation_quantize_fn_forward self [Fin (-3 # 10)]) = Ok y /\
             teq y [Fin 0]).
Proof.
  split; [reflexivity | split].
  - eexists. split; [reflexivity | ].
    constructor; [vm_compute; reflexivity | constructor].
  - eexists. split; [reflexivity | ].
    constructor; [vm_compute; reflexivity | constructor].
Qed.

(** ** Weight quantization on the uniform bit-widths *)

Lemma bool_eq_of_iff (a b : bool) : (a = true <-> b = true) -> a = b.
Proof. destruct a, b; intros [H1 H2]; auto; symmetry; auto. Qed.

Lemma Qis_zero_half (q : Q) : Qis_zero (q / 2) = Qis_zero q.
Proof.
  apply bool_eq_of_iff. rewrite !Qis_zero_true.
  setoid_replace (q / 2) with (q * (1 # 2)) by field.
  split; intro; lra.
Qed.

Lemma weight_forward_else (tanhQ : Q -> Q) (k : Z) (w : tensor) (m : scalar) :
  (- float_overflow < k <= 8)%Z -> k <> 1%Z ->
  torch_max (torch_abs (torch_tanh tanhQ w)) = Ok m ->
  (self <- weight_quantize_fn_init k ;;
   weight_quantize_fn_forward tanhQ self w) =
  Ok (tsub
        (smul (Fin (pow2m1 k))
           (map (quantize_elem (pow2m1 k))
              (tadd (tdiv (tdiv (torch_tanh tanhQ w) (Fin 2)) m) (Fin (1 # 2)))))
        (Fin ((pow2m1 k + 1) / 2))).
Proof.
  intros Hk H1 Hm. rewrite weight_quantize_fn_init_ok by lia. cbn [bind].
  unfold weight_quantize_fn_forward.
  cbn [wq_n_bits wq_uniform_q wq_value_range].
  destruct (Z.eqb_spec k 32) as [E | _]; [lia | ].
  destruct (Z.eqb_spec k 1) as [E | _]; [contradiction | ].
  rewrite Hm. cbn [bind]. unfold apply; cbn [forward get_uniform_quantizer].
  rewrite qfn_forward_uniform by lia. reflexivity.
Qed.

(** ** The all-zero weight tensor *)

Lemma fold_fadd_zeros (n : nat) :
  fold_left fadd (repeat (Fin 0) n) (Fin 0) = Fin 0.
Proof. induction n as [ | n IH]; simpl; [reflexivity | exact IH]. Qed.

Lemma fold_fmax_repeat (p : Q) (n : nat) :
  fold_left fmax (repeat (Fin p) n) (Fin p) = Fin p.
Proof.
  induction n as [ | n IH]; simpl; [reflexivity | ].
  destruct (Qle_bool p p); exact IH.
Qed.

(** The mean of [|w|] over [S len] zeros is the finite value [0 / (S len)]. *)
Lemma mean_abs_zeros (len : nat) :
  torch_mean (torch_abs (repeat (Fin 0) (S len))) =
  Fin (0 / inject_Z (Z.of_nat (S len))).
Proof.
  unfold torch_mean, torch_abs. rewrite map_repeat, repeat_length.
  change (fabs (Fin 0)) with (Fin 0). rewrite fold_fadd_zeros.
  unfold fdiv.
  assert (Hz : Qis_zero (inject_Z (Z.of_nat (S len))) = false).
  { apply Qis_zero_false. unfold Qeq; simpl. lia. }
  rewrite Hz. reflexivity.
Qed.

Lemma tdiv_zeros_by_mean (len : nat) :
  tdiv (repeat (Fin 0) (S len))
    (torch_mean (torch_abs (repeat (Fin 0) (S len)))) =
  repeat NaN (S len).
Proof.
  rewrite mean_abs_zeros.
  assert (He : 0 / inject_Z (Z.of_nat (S len)) == 0) by (unfold Qdiv; ring).
  unfold tdiv. rewrite map_repeat.
  apply Qis_zero_true in He. unfold fdiv. rewrite He. reflexivity.
Qed.

(** C10. On the all-zero weight tensor (of any positive size) the weight
    quantizer divides by a zero scalar in both quantizing branches and no
    finite tensor comes out.  At [k = 1] the divisor [E = mean(|w|)] is 0
    and what the branch hands to its quantizer, whatever that quantizer
    is, is the all-[nan] quotient [w / E] (with the notebook's quantizer
    the call then ends in its exception); for [k] in 2..8 the divisor
    [max|tanh(w)|] is 0 and the returned tensor is all [nan]. *)
Theorem weight_forward_zero_tensor (tanhQ : Q -> Q) (len : nat) :
  tanhQ 0 == 0 ->
  let w := repeat (Fin 0) (S len) in
  (feq (torch_mean (torch_abs w)) (Fin 0) /\
   (forall (value_range : Q) (uniform_q : tensor -> result tensor),
      weight_quantize_fn_forward tanhQ
        {| wq_n_bits := 1;
           wq_value_range := value_range;
           wq_uniform_q := uniform_q |} w =
      (q <- uniform_q (repeat NaN (S len)) ;;
       Ok (tmul q (torch_mean (torch_abs w))))) /\
   finite_output (self <- weight_quantize_fn_init 1 ;;
                  weight_quantize_fn_forward tanhQ self w) = false) /\
  (forall k : Z, (2 <= k <= 8)%Z ->
     (exists m, torch_max (torch_abs (torch_tanh tanhQ w)) = Ok m /\
                feq m (Fin 0)) /\
     (self <- weight_quantize_fn_init k ;;
      weight_quantize_fn_forward tanhQ self w) = Ok (repeat NaN (S len)) /\
     finite_output (self <- weight_quantize_fn_init k ;;
                    weight_quantize_fn_forward tanhQ self w) = false).
Proof.
  intros Ht w. subst w. split.
  - split; [ | split].
    + rewrite mean_abs_zeros. unfold feq, Qdiv. ring.
    + intros value_range uniform_q.
      unfold weight_quantize_fn_forward.
      cbn [wq_n_bits wq_uniform_q wq_value_range].
      change ((1 =? 32)%Z) with false. change ((1 =? 1)%Z) with true.
      cbv iota. rewrite tdiv_zeros_by_mean. reflexivity.
    + reflexivity.
  - intros k Hk.
    assert (Ha : Qabs (tanhQ 0) == 0) by (rewrite Ht; reflexivity).
    assert (Hm : torch_max (torch_abs (torch_tanh tanhQ (repeat (Fin 0) (S len))))
                 = Ok (Fin (Qabs (tanhQ 0)))).
    { unfold torch_tanh, torch_abs. rewrite !map_repeat. simpl.
      rewrite fold_fmax_repeat. reflexivity. }
    assert (Hout : (self <- weight_quantize_fn_init k ;;
                    weight_quantize_fn_forward tanhQ self (repeat (Fin 0) (S len)))
                   = Ok (repeat NaN (S len))).
    { rewrite (@weight_forward_else tanhQ k _ (Fin (Qabs (tanhQ 0))));
        [ | width_lia | lia | exact Hm].
      apply f_equal.
      unfold tsub, smul, tadd, tdiv, torch_tanh. rewrite !map_repeat.
      apply f_equal2; [ | reflexivity].
      assert (Hd : fdiv (fdiv (ftanh tanhQ (Fin 0)) (Fin 2)) (Fin (Qabs (tanhQ 0)))
                   = NaN).
      { simpl. apply Qis_zero_true in Ha. rewrite Ha.
        rewrite Qis_zero_half. apply Qis_zero_true in Ht. rewrite Ht.
        reflexivity. }
      rewrite Hd. reflexivity. }
    split; [ | split].
    + exists (Fin (Qabs (tanhQ 0))). split; [exact Hm | exact Ha].
    + exact Hout.
    + rewrite Hout. reflexivity.
Qed.

Lemma weight_forward_zero_tensor_witness :
  let w := repeat (Fin 0) 2 in
  (feq (torch_mean (torch_abs w)) (Fin 0) /\
   (forall (value_range : Q) (uniform_q : tensor -> result tensor),
      weight_quantize_fn_forward tanh_pade
        {| wq_n_bits := 1;
           wq_value_range := value_range;
           wq_uniform_q := uniform_q |} w =
      (q <- uniform_q (repeat NaN 2) ;;
       Ok (tmul q (torch_mean (torch_abs w))))) /\
   finite_output (self <- weight_quantize_fn_init 1 ;;
                  weight_quantize_fn_forward tanh_pade self w) = false) /\
  (forall k : Z, (2 <= k <= 8)%Z ->
     (exists m, torch_max (torch_abs (torch_tanh tanh_pade w)) = Ok m /\
                feq m (Fin 0)) /\
     (self <- weight_quantize_fn_init k ;;
      weight_quantize_fn_forward tanh_pade self w) = Ok (repeat NaN 2) /\
     finite_output (self <- weight_quantize_fn_init k ;;
                    weight_quantize_fn_forward tanh_pade self w) = false).
Proof.
  apply (@weight_forward_zero_tensor tanh_pade 1). vm_compute. reflexivity.
Defined.

(** * Further properties of the notebook's code *)

(** ** Rounding: error and monotonicity *)

Lemma quantize_elem_inf (n : Q) (s : bool) :
  0 < n -> quantize_elem n (Inf s) = Inf s.
Proof.
  intros Hn.
  assert (Hz : Qis_zero n = false) by (apply Qis_zero_false; lra).
  assert (Hs : Qis_neg n = false) by (apply Qis_neg_false; lra).
  unfold quantize_elem. simpl. rewrite Hz, Hs. simpl. rewrite Hs.
  destruct s; reflexivity.
Qed.

Lemma Forall2_map_self (R : scalar -> scalar -> Prop) (f : scalar -> scalar)
  (x : tensor) :
  (forall a, R a (f a)) -> Forall2 R x (map f x).
Proof. intros H. induction x; simpl; constructor; auto. Qed.

Lemma Forall2_map_both (R : scalar -> scalar -> Prop) (f : scalar -> scalar)
  (x y : tensor) :
  (forall a b, fle a b -> R (f a) (f b)) ->
  Forall2 fle x y -> Forall2 R (map f x) (map f y).
Proof. intros H F. induction F; simpl; constructor; auto. Qed.

Lemma quantize_elem_within (n eps : Q) (a : scalar) :
  0 < n -> eps == 1 / (2 * n) -> within eps a (quantize_elem n a).
Proof.
  intros Hn Heps. destruct a as [q | s | ].
  - rewrite quantize_elem_fin by lra. unfold within.
    pose proof (round_half_even_error (q * n)) as E.
    apply Qabs_Qle_condition in E. apply Qabs_Qle_condition.
    pose proof (Qinv_lt_0_compat n Hn) as Hi.
    set (r := inject_Z (round_half_even (q * n))) in *.
    assert (H1 : r / n - q == (r - q * n) * / n) by (field; lra).
    assert (H2 : eps == (1 # 2) * / n) by (rewrite Heps; field; lra).
    assert (H3 : (r - q * n) * / n <= (1 # 2) * / n)
      by (apply Qmult_le_compat_r; lra).
    assert (H4 : (- (1 # 2)) * / n <= (r - q * n) * / n)
      by (apply Qmult_le_compat_r; lra).
    rewrite H1, H2. split; lra.
  - rewrite quantize_elem_inf by exact Hn. reflexivity.
  - exact I.
Qed.

Lemma quantize_elem_mono (n : Q) (a b : scalar) :
  0 < n -> fle a b -> fle (quantize_elem n a) (quantize_elem n b).
Proof.
  intros Hn H. pose proof (Qinv_lt_0_compat n Hn) as Hi.
  destruct a as [p | s | ], b as [q | t | ];
    rewrite ?quantize_elem_fin by lra;
    rewrite ?quantize_elem_inf by exact Hn;
    try exact H; try (destruct s; exact H).
  unfold fle in *. unfold Qdiv. apply Qmult_le_compat_r; [ | lra].
  rewrite <- Zle_Qle. apply round_half_even_mono.
  apply Qmult_le_compat_r; lra.
Qed.

Lemma quantize_elem_within_step (n : Q) (N : Z) (a : scalar) :
  0 < n -> n == inject_Z N ->
  within (1 / inject_Z N) a (quantize_elem n a).
Proof.
  intros Hn HN.
  pose proof (@quantize_elem_within n (1 / (2 * n)) a Hn (Qeq_refl _)) as H.
  destruct a as [q | s | ]; try exact H.
  rewrite quantize_elem_fin in * by lra. unfold within in *.
  eapply Qle_trans; [exact H | ].
  rewrite <- HN. pose proof (Qinv_lt_0_compat n Hn) as Hi.
  assert (E1 : 1 / (2 * n) == (1 # 2) * / n) by (field; lra).
  assert (E2 : 1 / n == 1 * / n) by (field; lra).
  rewrite E1, E2. apply Qmult_le_compat_r; lra.
Qed.

(** X1. For every bit-width [k] in 2..8 the uniform quantizer moves an
    element of [[-1, 1]] by at most one step, [1 / (2^k - 1)], and passes
    infinities and [nan] through unchanged. *)
Theorem uniform_quantizer_error (k : Z) (x : tensor) :
  (2 <= k <= 8)%Z ->
  exists y : tensor,
    apply (get_uniform_quantizer k) x = Ok y /\
    Forall2 (fun a b => unit_ball a ->
                        within (1 / inject_Z (2 ^ k - 1)) a b) x y.
Proof.
  intros Hk. exists (map (quantize_elem (pow2m1 k)) x). split.
  - apply qfn_forward_uniform; width_lia.
  - apply Forall2_map_self. intros a _. apply quantize_elem_within_step.
    + apply pow2m1_pos. lia.
    + apply pow2m1_inject. lia.
Qed.

Lemma uniform_quantizer_error_witness :
  exists y : tensor,
    apply (get_uniform_quantizer 4) [Fin (7 # 10); Inf true; NaN] = Ok y /\
    Forall2 (fun a b => unit_ball a ->
                        within (1 / inject_Z (2 ^ 4 - 1)) a b)
      [Fin (7 # 10); Inf true; NaN] y.
Proof.
  apply (@uniform_quantizer_error 4 [Fin (7 # 10); Inf true; NaN]). lia.
Defined.

(** X2. For every bit-width [k] in 2..8 the uniform quantizer is monotone:
    element-wise ordered inputs give element-wise ordered outputs. *)
Theorem uniform_quantizer_monotone (k : Z) (x y : tensor) :
  (2 <= k <= 8)%Z ->
  Forall2 fle x y ->
  exists x' y' : tensor,
    apply (get_uniform_quantizer k) x = Ok x' /\
    apply (get_uniform_quantizer k) y = Ok y' /\
    Forall2 fle x' y'.
Proof.
  intros Hk H.
  exists (map (quantize_elem (pow2m1 k)) x), (map (quantize_elem (pow2m1 k)) y).
  split; [ | split].
  - apply qfn_forward_uniform; width_lia.
  - apply qfn_forward_uniform; width_lia.
  - apply Forall2_map_both; [ | exact H].
    intros a b Hab. apply quantize_elem_mono; [ | exact Hab].
    apply pow2m1_pos. lia.
Qed.

Lemma uniform_quantizer_monotone_witness :
  exists x' y' : tensor,
    apply (get_uniform_quantizer 2) [Fin (1 # 5); Fin (1 # 2)] = Ok x' /\
    apply (get_uniform_quantizer 2) [Fin (3 # 10); Inf false] = Ok y' /\
    Forall2 fle x' y'.
Proof.
  apply (@uniform_quantizer_monotone 2 [Fin (1 # 5); Fin (1 # 2)]
           [Fin (3 # 10); Inf false]).
  - lia.
  - repeat constructor. simpl. unfold Qle. simpl. lia.
Defined.

(** ** Activation quantization: levels and saturation *)

Lemma activation_forward_elem (k : Z) (x : tensor) :
  (- float_overflow < k <= 8)%Z -> k <> 1%Z ->
  (self <- activation_quantize_fn_init k ;;
   activation_quantize_fn_forward self x) =
  Ok (map (activation_elem (pow2m1 k)) x).
Proof.
  intros Hk H1. rewrite activation_quantize_fn_init_ok by lia. cbn [bind].
  unfold activation_quantize_fn_forward. cbn [aq_n_bits aq_uniform_q].
  destruct (Z.eqb_spec k 32) as [E | _]; [lia | ].
  rewrite py_pow2m1_ok by lia. cbn [bind].
  unfold apply; cbn [forward get_uniform_quantizer].
  rewrite qfn_forward_uniform by lia. cbn [bind].
  unfold smul, torch_clamp01. rewrite !map_map. reflexivity.
Qed.

Lemma fclamp01_in_unit (a : scalar) :
  is_nan a = false -> in_unit (fclamp01 a) = true.
Proof.
  destruct a as [q | s | ]; simpl; intros H; try discriminate.
  - destruct (Qis_neg q) eqn:Hneg; [reflexivity | ].
    destruct (Qle_bool q 1) eqn:Hle; [ | reflexivity].
    simpl. rewrite Hle. apply Qis_neg_false in Hneg.
    apply Qle_bool_iff in Hneg. rewrite Hneg. reflexivity.
  - destruct s; reflexivity.
Qed.

Lemma fclamp01_low (a : scalar) : fle a (Fin 0) -> feq (fclamp01 a) (Fin 0).
Proof.
  destruct a as [q | s | ]; simpl; intros H; try contradiction.
  - destruct (Qis_neg q) eqn:Hneg; [reflexivity | ].
    apply Qis_neg_false in Hneg.
    destruct (Qle_bool q 1) eqn:Hle; simpl; [lra | ].
    assert (H1 : q <= 1) by lra. apply Qle_bool_iff in H1. congruence.
  - destruct s; [reflexivity | contradiction].
Qed.

Lemma fclamp01_high (a : scalar) : fle (Fin 1) a -> feq (fclamp01 a) (Fin 1).
Proof.
  destruct a as [q | s | ]; simpl; intros H; try contradiction.
  - assert (Hneg : Qis_neg q = false) by (apply Qis_neg_false; lra).
    rewrite Hneg. destruct (Qle_bool q 1) eqn:Hle; simpl; [ | reflexivity].
    apply Qle_bool_iff in Hle. lra.
  - destruct s; [contradiction | reflexivity].
Qed.

Lemma quantize_elem_zero_point (n : Q) :
  0 < n -> feq (quantize_elem n (Fin 0)) (Fin 0).
Proof.
  intros Hn. rewrite quantize_elem_fin by lra. unfold feq.
  rewrite (@round_half_even_comp (0 * n) (inject_Z 0)) by ring.
  rewrite round_half_even_Z. change (inject_Z 0) with 0. field. lra.
Qed.

Lemma quantize_elem_one_point (n : Q) (N : Z) :
  0 < n -> n == inject_Z N -> feq (quantize_elem n (Fin 1)) (Fin 1).
Proof.
  intros Hn HN. rewrite quantize_elem_fin by lra. unfold feq.
  rewrite (@round_half_even_comp (1 * n) (inject_Z N)) by (rewrite HN; ring).
  rewrite round_half_even_Z. rewrite <- HN. field. lra.
Qed.

Lemma activation_elem_level (k : Z) (a : scalar) :
  (1 <= k)%Z -> is_nan a = false ->
  integer_between 0 (2 ^ k - 1) (activation_elem (pow2m1 k) a).
Proof.
  intros Hk Ha.
  destruct (@quantize_elem_on_grid k (fclamp01 a) Hk (fclamp01_in_unit a Ha))
    as [i [Hi Hq]].
  exists i. split; [exact Hi | ].
  unfold activation_elem.
  eapply feq_trans; [apply fmul_feq; [apply feq_refl | exact Hq] | ].
  pose proof (pow2m1_pos Hk) as Hpos.
  assert (Hn : pow2m1 k == inject_Z (2 ^ k - 1)) by (apply pow2m1_inject; lia).
  unfold fmul, feq. rewrite Hn. field. lra.
Qed.

(** X3. For every bit-width [k] in 2..8 the activation quantizer returns,
    for each element that is not [nan] (whatever its size or sign, the
    infinities included), an integer level between 0 and [2^k - 1]; a [nan]
    element stays [nan]. *)
Theorem activation_integer_levels (k : Z) (x : tensor) :
  (2 <= k <= 8)%Z ->
  exists y : tensor,
    (self <- activation_quantize_fn_init k ;;
     activation_quantize_fn_forward self x) = Ok y /\
    Forall2 (fun a b => if is_nan a then b = NaN
                        else integer_between 0 (2 ^ k - 1) b) x y.
Proof.
  intros Hk. exists (map (activation_elem (pow2m1 k)) x). split.
  - apply activation_forward_elem; width_lia.
  - apply Forall2_map_self. intros a.
    destruct (is_nan a) eqn:Ha.
    + destruct a; try discriminate. reflexivity.
    + apply activation_elem_level; [lia | exact Ha].
Qed.

Lemma activation_integer_levels_witness :
  exists y : tensor,
    (self <- activation_quantize_fn_init 3 ;;
     activation_quantize_fn_forward self [Fin (37 # 10); NaN; Inf true]) = Ok y /\
    Forall2 (fun a b => if is_nan a then b = NaN
                        else integer_between 0 (2 ^ 3 - 1) b)
      [Fin (37 # 10); NaN; Inf true] y.
Proof.
  apply (@activation_integer_levels 3 [Fin (37 # 10); NaN; Inf true]). lia.
Defined.

(** X4. For every bit-width [k] in 2..8 the activation quantizer saturates:
    an element at or below 0 gives the level 0, and an element at or above
    1 gives the top level [2^k - 1]. *)
Theorem activation_saturates (k : Z) (x : tensor) :
  (2 <= k <= 8)%Z ->
  exists y : tensor,
    (self <- activation_quantize_fn_init k ;;
     activation_quantize_fn_forward self x) = Ok y /\
    Forall2 (fun a b =>
               (fle a (Fin 0) -> feq b (Fin 0)) /\
               (fle (Fin 1) a -> feq b (Fin (inject_Z (2 ^ k - 1))))) x y.
Proof.
  intros Hk. exists (map (activation_elem (pow2m1 k)) x). split.
  - apply activation_forward_elem; width_lia.
  - apply Forall2_map_self. intros a.
    assert (Hpos : 0 < pow2m1 k) by (apply pow2m1_pos; lia).
    assert (Hn : pow2m1 k == inject_Z (2 ^ k - 1)) by (apply pow2m1_inject; lia).
    unfold activation_elem. split; intros Ha.
    + eapply feq_trans.
      * apply fmul_feq; [apply feq_refl | ].
        eapply feq_trans; [apply quantize_elem_feq, fclamp01_low, Ha | ].
        apply quantize_elem_zero_point, Hpos.
      * unfold fmul, feq. ring.
    + eapply feq_trans.
      * apply fmul_feq; [apply feq_refl | ].
        eapply feq_trans; [apply quantize_elem_feq, fclamp01_high, Ha | ].
        apply (quantize_elem_one_point Hpos Hn).
      * unfold fmul, feq. rewrite Hn. ring.
Qed.

Lemma activation_saturates_witness :
  exists y : tensor,
    (self <- activation_quantize_fn_init 8 ;;
     activation_quantize_fn_forward self [Fin (-4); Fin 9]) = Ok y /\
    Forall2 (fun a b =>
               (fle a (Fin 0) -> feq b (Fin 0)) /\
               (fle (Fin 1) a -> feq b (Fin (inject_Z (2 ^ 8 - 1)))))
      [Fin (-4); Fin 9] y.
Proof. apply (@activation_saturates 8 [Fin (-4); Fin 9]). lia. Defined.

(** ** Weight quantization: the integer range *)

Lemma torch_tanh_finite (tanhQ : Q -> Q) (w : tensor) :
  Forall (fun a => is_nan a = false) w ->
  exists ts : list Q, torch_tanh tanhQ w = map Fin ts.
Proof.
  intros H. induction H as [ | a r Ha _ [ts IH]].
  - exists []. reflexivity.
  - unfold torch_tanh in *. simpl. rewrite IH.
    destruct a as [q | s | ]; try discriminate.
    + exists (tanhQ q :: ts). reflexivity.
    + exists ((if s then -1 else 1) :: ts). reflexivity.
Qed.

Lemma torch_abs_Fin (ts : list Q) :
  torch_abs (map Fin ts) = map Fin (map Qabs ts).
Proof. unfold torch_abs. rewrite !map_map. reflexivity. Qed.

(** The running maximum over finite elements is one of them and bounds
    them all. *)
Lemma fold_fmax_Fin (qs : list Q) (q0 : Q) :
  exists M : Q,
    fold_left fmax (map Fin qs) (Fin q0) = Fin M /\
    q0 <= M /\ Forall (fun q => q <= M) qs /\ In M (q0 :: qs).
Proof.
  revert q0. induction qs as [ | q qs IH]; intros q0.
  - exists q0. simpl. repeat split; [lra | constructor | left; reflexivity].
  - simpl. destruct (Qle_bool q0 q) eqn:Hle.
    + apply Qle_bool_iff in Hle.
      destruct (IH q) as [M [HM [Hq [Hall Hin]]]].
      exists M. repeat split; [exact HM | lra | constructor; assumption | ].
      right. exact Hin.
    + assert (Hlt : q <= q0).
      { destruct (Qlt_le_dec q0 q) as [L | L]; [ | exact L].
        assert (Hc : q0 <= q) by lra. apply Qle_bool_iff in Hc. congruence. }
      destruct (IH q0) as [M [HM [Hq [Hall Hin]]]].
      exists M. repeat split; [exact HM | exact Hq | constructor; [lra | assumption] | ].
      destruct Hin as [E | Hin]; [left; exact E | right; right; exact Hin].
Qed.

Lemma max_abs_Fin (t : Q) (ts : list Q) :
  exists M : Q,
    torch_max (torch_abs (map Fin (t :: ts))) = Ok (Fin M) /\
    Forall (fun u => Qabs u <= M) (t :: ts) /\
    exists u, In u (t :: ts) /\ M = Qabs u.
Proof.
  rewrite torch_abs_Fin. simpl.
  destruct (fold_fmax_Fin (map Qabs ts) (Qabs t)) as [M [HM [H0 [Hall Hin]]]].
  exists M. split; [rewrite HM; reflexivity | split].
  - constructor; [exact H0 | ].
    rewrite Forall_forall in Hall. apply Forall_forall.
    intros u Hu. apply Hall. apply in_map. exact Hu.
  - change (Qabs t :: map Qabs ts) with (map Qabs (t :: ts)) in Hin.
    apply in_map_iff in Hin. destruct Hin as [u [E Hu]].
    exists u. split; [exact Hu | symmetry; exact E].
Qed.

Lemma Qabs_pos_of_nonzero (t : Q) : ~ t == 0 -> 0 < Qabs t.
Proof. intros H. apply Qabs_case; intros; lra. Qed.

Lemma weight_arg_Fin (t M : Q) :
  ~ M == 0 ->
  fadd (fdiv (fdiv (Fin t) (Fin 2)) (Fin M)) (Fin (1 # 2)) =
  Fin (t / 2 / M + (1 # 2)).
Proof.
  intros HM. apply Qis_zero_false in HM. simpl. rewrite HM. reflexivity.
Qed.

Lemma weight_arg_bounds (t M : Q) :
  0 < M -> Qabs t <= M -> 0 <= t / 2 / M + (1 # 2) <= 1.
Proof.
  intros HM Ht. apply Qabs_Qle_condition in Ht. destruct Ht as [Hlo Hhi].
  assert (H1 : t / M <= 1) by (apply Qle_shift_div_r; lra).
  assert (H2 : -1 <= t / M) by (apply Qle_shift_div_l; lra).
  assert (E : t / 2 / M == t / M * (1 # 2)) by (field; lra).
  rewrite E. split; lra.
Qed.

Lemma inject_Z_sub (a b : Z) : inject_Z (a - b) == inject_Z a - inject_Z b.
Proof. unfold Z.sub. rewrite inject_Z_plus, inject_Z_opp. reflexivity. Qed.

Lemma pow2_half (k : Z) : (1 <= k)%Z -> (2 ^ k = 2 * 2 ^ (k - 1))%Z.
Proof.
  intros H. replace k with (Z.succ (k - 1)) at 1 by lia.
  apply Z.pow_succ_r. lia.
Qed.

(** The last step of the branch, [n * q - (n + 1) / 2], on a grid value
    [q = i / n]: the integer [i - 2^(k-1)]. *)
Lemma weight_rescale (k i : Z) (q : scalar) :
  (1 <= k)%Z ->
  feq q (Fin (inject_Z i / inject_Z (2 ^ k - 1))) ->
  feq (fsub (fmul (Fin (pow2m1 k)) q) (Fin ((pow2m1 k + 1) / 2)))
      (Fin (inject_Z (i - 2 ^ (k - 1)))).
Proof.
  intros Hk Hq.
  eapply feq_trans.
  { apply fsub_feq; [apply fmul_feq; [apply feq_refl | exact Hq] | apply feq_refl]. }
  pose proof (pow2m1_pos Hk) as Hpos.
  assert (Hn : pow2m1 k == inject_Z (2 ^ k - 1)) by (apply pow2m1_inject; lia).
  assert (HP : inject_Z (2 ^ k - 1) == 2 * inject_Z (2 ^ (k - 1)) - 1).
  { rewrite (pow2_half Hk), inject_Z_sub, inject_Z_mult. reflexivity. }
  unfold fsub, fmul, fneg, fadd, feq.
  rewrite Hn, HP, inject_Z_sub. rewrite Hn, HP in Hpos. field. lra.
Qed.

Lemma weight_elem_range (k : Z) (t M : Q) :
  (1 <= k)%Z -> 0 < M -> Qabs t <= M ->
  integer_between (- 2 ^ (k - 1)) (2 ^ (k - 1) - 1)
    (weight_elem (pow2m1 k) (Fin M) (Fin t)).
Proof.
  intros Hk HM Ht. unfold weight_elem. rewrite weight_arg_Fin by lra.
  pose proof (@weight_arg_bounds t M HM Ht) as [Hlo Hhi].
  assert (Hu : in_unit (Fin (t / 2 / M + (1 # 2))) = true).
  { simpl. apply andb_true_iff. split; apply Qle_bool_iff; assumption. }
  destruct (@quantize_elem_on_grid k _ Hk Hu) as [i [Hi Hq]].
  exists (i - 2 ^ (k - 1))%Z. split.
  - pose proof (pow2_half Hk). lia.
  - apply weight_rescale; assumption.
Qed.

Lemma weight_elem_top (k : Z) (t M : Q) :
  (1 <= k)%Z -> 0 < M -> t == M ->
  feq (weight_elem (pow2m1 k) (Fin M) (Fin t))
      (Fin (inject_Z (2 ^ (k - 1) - 1))).
Proof.
  intros Hk HM Ht. unfold weight_elem. rewrite weight_arg_Fin by lra.
  pose proof (pow2m1_pos Hk) as Hpos.
  assert (Hn : pow2m1 k == inject_Z (2 ^ k - 1)) by (apply pow2m1_inject; lia).
  assert (Hq : feq (quantize_elem (pow2m1 k) (Fin (t / 2 / M + (1 # 2))))
                   (Fin (inject_Z (2 ^ k - 1) / inject_Z (2 ^ k - 1)))).
  { eapply feq_trans.
    - apply (@quantize_elem_feq _ _ (Fin 1)). unfold feq. rewrite Ht. field. lra.
    - eapply feq_trans; [apply (quantize_elem_one_point Hpos Hn) | ].
      unfold feq. field. lra. }
  replace (2 ^ (k - 1) - 1)%Z with (2 ^ k - 1 - 2 ^ (k - 1))%Z
    by (rewrite (pow2_half Hk); lia).
  apply weight_rescale; assumption.
Qed.

Lemma weight_elem_bottom (k : Z) (t M : Q) :
  (1 <= k)%Z -> 0 < M -> t == - M ->
  feq (weight_elem (pow2m1 k) (Fin M) (Fin t))
      (Fin (inject_Z (- 2 ^ (k - 1)))).
Proof.
  intros Hk HM Ht. unfold weight_elem. rewrite weight_arg_Fin by lra.
  pose proof (pow2m1_pos Hk) as Hpos.
  assert (Hn : pow2m1 k == inject_Z (2 ^ k - 1)) by (apply pow2m1_inject; lia).
  assert (Hq : feq (quantize_elem (pow2m1 k) (Fin (t / 2 / M + (1 # 2))))
                   (Fin (inject_Z 0 / inject_Z (2 ^ k - 1)))).
  { eapply feq_trans.
    - apply (@quantize_elem_feq _ _ (Fin 0)). unfold feq. rewrite Ht. field. lra.
    - eapply feq_trans; [apply (quantize_elem_zero_point Hpos) | ].
      unfold feq. change (inject_Z 0) with 0. field. lra. }
  replace (- 2 ^ (k - 1))%Z with (0 - 2 ^ (k - 1))%Z by lia.
  apply weight_rescale; assumption.
Qed.

Lemma weight_forward_finite (tanhQ : Q -> Q) (k : Z) (w : tensor) :
  (2 <= k <= 8)%Z ->
  Forall (fun a => is_nan a = false) w ->
  Exists (fun a => ~ feq a (Fin 0)) (torch_tanh tanhQ w) ->
  exists (ts : list Q) (M : Q),
    length ts = length w /\ 0 < M /\
    Forall (fun t => Qabs t <= M) ts /\
    (exists t, In t ts /\ M = Qabs t) /\
    (self <- weight_quantize_fn_init k ;;
     weight_quantize_fn_forward tanhQ self w) =
    Ok (map (fun t => weight_elem (pow2m1 k) (Fin M) (Fin t)) ts).
Proof.
  intros Hk Hw Hnz.
  destruct (torch_tanh_finite tanhQ Hw) as [ts Hts].
  assert (Hlen : length ts = length w).
  { rewrite <- (length_map Fin ts), <- Hts. unfold torch_tanh. apply length_map. }
  rewrite Hts in Hnz.
  destruct ts as [ | t ts]; [inversion Hnz | ].
  destruct (max_abs_Fin t ts) as [M [HM [Hall Hex]]].
  assert (Hpos : 0 < M).
  { apply Exists_exists in Hnz. destruct Hnz as [a [Ha Hna]].
    apply in_map_iff in Ha. destruct Ha as [u [Eu Hu]]. subst a.
    unfold feq in Hna. rewrite Forall_forall in Hall.
    pose proof (Hall u Hu). pose proof (Qabs_pos_of_nonzero Hna). lra. }
  exists (t :: ts), M.
  split; [exact Hlen | split; [exact Hpos | split; [exact Hall | split; [exact Hex | ]]]].
  rewrite (@weight_forward_else tanhQ k w (Fin M)); [ | width_lia | width_lia | rewrite Hts; exact HM].
  apply f_equal. rewrite Hts. unfold tsub, smul, tadd, tdiv.
  rewrite !map_map. reflexivity.
Qed.

Lemma weight_forward_range_aux (tanhQ : Q -> Q) (k : Z) (w : tensor) :
  (2 <= k <= 8)%Z ->
  Forall (fun a => is_nan a = false) w ->
  Exists (fun a => ~ feq a (Fin 0)) (torch_tanh tanhQ w) ->
  exists out : tensor,
    (self <- weight_quantize_fn_init k ;;
     weight_quantize_fn_forward tanhQ self w) = Ok out /\
    length out = length w /\
    Forall (integer_between (- 2 ^ (k - 1)) (2 ^ (k - 1) - 1)) out.
Proof.
  intros Hk Hw Hnz.
  destruct (weight_forward_finite tanhQ Hk Hw Hnz)
    as [ts [M [Hlen [Hpos [Hall [_ Hout]]]]]].
  eexists. split; [exact Hout | split].
  - rewrite length_map. exact Hlen.
  - apply Forall_forall. intros b Hb.
    apply in_map_iff in Hb. destruct Hb as [t [Eb Ht]]. subst b.
    rewrite Forall_forall in Hall.
    apply weight_elem_range; [lia | exact Hpos | exact (Hall t Ht)].
Qed.

Lemma half_normal_pos : 0 < half_normal.
Proof. reflexivity. Qed.

Lemma at_least_half_normal_nonzero (l : tensor) :
  Exists at_least_half_normal l -> Exists (fun a => ~ feq a (Fin 0)) l.
Proof.
  apply Exists_impl. intros a Ha Hz.
  destruct a as [t | s | ]; simpl in Ha, Hz; try contradiction.
  pose proof half_normal_pos as Hp.
  assert (E : Qabs t == 0) by (rewrite Hz; reflexivity).
  lra.
Qed.

(** X5. For every bit-width [k] in 2..8 and every weight tensor without
    [nan] in which some [tanh] value has magnitude at least [2^-125], the
    weight quantizer returns a tensor of the same size whose elements are
    integers between [-2^(k-1)] and [2^(k-1) - 1]. *)
Theorem weight_forward_integer_range (tanhQ : Q -> Q) (k : Z) (w : tensor) :
  (2 <= k <= 8)%Z ->
  Forall (fun a => is_nan a = false) w ->
  Exists at_least_half_normal (torch_tanh tanhQ w) ->
  exists out : tensor,
    (self <- weight_quantize_fn_init k ;;
     weight_quantize_fn_forward tanhQ self w) = Ok out /\
    length out = length w /\
    Forall (integer_between (- 2 ^ (k - 1)) (2 ^ (k - 1) - 1)) out.
Proof.
  intros Hk Hw Hbig.
  exact (@weight_forward_range_aux tanhQ k w Hk Hw
           (at_least_half_normal_nonzero Hbig)).
Qed.

Lemma weight_forward_integer_range_witness :
  exists out : tensor,
    (self <- weight_quantize_fn_init 3 ;;
     weight_quantize_fn_forward tanh_pade self
       [Fin 1; Fin (-1 # 2); Inf true]) = Ok out /\
    length out = length [Fin 1; Fin (-1 # 2); Inf true] /\
    Forall (integer_between (- 2 ^ (3 - 1)) (2 ^ (3 - 1) - 1)) out.
Proof.
  apply (@weight_forward_integer_range tanh_pade 3
           [Fin 1; Fin (-1 # 2); Inf true]).
  - lia.
  - repeat constructor.
  - apply Exists_cons_hd. vm_compute. discriminate.
Defined.

(** X6. Under the same conditions the rescaling by the current maximum
    always uses an end of the range: some output element is the top level
    [2^(k-1) - 1] or the bottom level [-2^(k-1)]. *)
Theorem weight_forward_reaches_extreme (tanhQ : Q -> Q) (k : Z) (w : tensor) :
  (2 <= k <= 8)%Z ->
  Forall (fun a => is_nan a = false) w ->
  Exists at_least_half_normal (torch_tanh tanhQ w) ->
  exists out : tensor,
    (self <- weight_quantize_fn_init k ;;
     weight_quantize_fn_forward tanhQ self w) = Ok out /\
    Exists (fun b => feq b (Fin (inject_Z (2 ^ (k - 1) - 1))) \/
                     feq b (Fin (inject_Z (- 2 ^ (k - 1))))) out.
Proof.
  intros Hk Hw Hbig.
  destruct (weight_forward_finite tanhQ Hk Hw (at_least_half_normal_nonzero Hbig))
    as [ts [M [_ [Hpos [_ [[t [Ht HM]] Hout]]]]]].
  eexists. split; [exact Hout | ].
  apply Exists_exists.
  exists (weight_elem (pow2m1 k) (Fin M) (Fin t)). split.
  - apply in_map_iff. exists t. split; [reflexivity | exact Ht].
  - destruct (Qlt_le_dec t 0) as [Hneg | Hnn].
    + right. apply weight_elem_bottom; [lia | exact Hpos | ].
      rewrite HM. rewrite Qabs_neg by lra. ring.
    + left. apply weight_elem_top; [lia | exact Hpos | ].
      rewrite HM. rewrite Qabs_pos by exact Hnn. reflexivity.
Qed.

Lemma weight_forward_reaches_extreme_witness :
  exists out : tensor,
    (self <- weight_quantize_fn_init 3 ;;
     weight_quantize_fn_forward tanh_pade self
       [Fin (1 # 4); Fin (-2)]) = Ok out /\
    Exists (fun b => feq b (Fin (inject_Z (2 ^ (3 - 1) - 1))) \/
                     feq b (Fin (inject_Z (- 2 ^ (3 - 1))))) out.
Proof.
  apply (@weight_forward_reaches_extreme tanh_pade 3 [Fin (1 # 4); Fin (-2)]).
  - lia.
  - repeat constructor.
  - apply Exists_cons_hd. vm_compute. discriminate.
Defined.

(** ** Accepted widths with no quantization step, and the empty tensor *)

Lemma quantize_elem_no_step (n : Q) (a : scalar) :
  n == 0 -> quantize_elem n a = NaN.
Proof.
  intros Hn. pose proof Hn as Hz. apply Qis_zero_true in Hz.
  destruct a as [q | s | ]; unfold quantize_elem; simpl.
  - rewrite Hz.
    rewrite (@round_half_even_comp (q * n) (inject_Z 0))
      by (rewrite Hn; ring).
    rewrite round_half_even_Z. reflexivity.
  - rewrite Hz. reflexivity.
  - reflexivity.
Qed.

(** X7. The bit-width 0 passes the construction guard of both modules, and
    with it every forward pass returns [nan] in every position: the
    quantizer, the activation quantizer, and the weight quantizer on any
    non-empty tensor. *)
Theorem zero_bits_all_nan (tanhQ : Q -> Q) (x : tensor) (a : scalar)
  (w : tensor) :
  apply (get_uniform_quantizer 0) x = Ok (map (fun _ => NaN) x) /\
  (self <- activation_quantize_fn_init 0 ;;
   activation_quantize_fn_forward self x) = Ok (map (fun _ => NaN) x) /\
  (self <- weight_quantize_fn_init 0 ;;
   weight_quantize_fn_forward tanhQ self (a :: w)) =
  Ok (map (fun _ => NaN) (a :: w)).
Proof.
  assert (H0 : pow2m1 0 == 0) by reflexivity.
  split; [ | split].
  - unfold apply; simpl. rewrite qfn_forward_uniform by width_lia.
    apply f_equal. apply map_ext. intros b.
    apply quantize_elem_no_step. exact H0.
  - rewrite activation_forward_elem by width_lia.
    apply f_equal. apply map_ext. intros b. unfold activation_elem.
    rewrite (quantize_elem_no_step _ H0). reflexivity.
  - rewrite (@weight_forward_else tanhQ 0 (a :: w)
               (fold_left fmax (torch_abs (torch_tanh tanhQ w))
                  (fabs (ftanh tanhQ a)))); [ | width_lia | lia | reflexivity].
    apply f_equal. unfold tsub, smul, tadd, tdiv, torch_tanh.
    rewrite !map_map. apply map_ext. intros b.
    rewrite (quantize_elem_no_step _ H0). reflexivity.
Qed.

(** X8. On the empty tensor the weight quantizer raises for every width
    it can be constructed with other than 1 and 32: the maximum over the
    whole tensor has nothing to range over. *)
Theorem weight_forward_empty (tanhQ : Q -> Q) (k : Z) :
  (- float_overflow < k <= 8)%Z -> k <> 1%Z ->
  (self <- weight_quantize_fn_init k ;;
   weight_quantize_fn_forward tanhQ self []) = Raise RuntimeError.
Proof.
  intros Hk H1. rewrite weight_quantize_fn_init_ok by lia. cbn [bind].
  unfold weight_quantize_fn_forward. cbn [wq_n_bits].
  destruct (Z.eqb_spec k 32) as [E | _]; [lia | ].
  destruct (Z.eqb_spec k 1) as [E | _]; [contradiction | ].
  reflexivity.
Qed.

Lemma weight_forward_empty_witness :
  (self <- weight_quantize_fn_init 4 ;;
   weight_quantize_fn_forward tanh_pade self []) = Raise RuntimeError.
Proof.
  apply (@weight_forward_empty tanh_pade 4); [ | lia].
  pose proof float_overflow_pos. lia.
Defined.

(** ** The layers built on the quantizers *)

(** X9. [DRFActivation] adds nothing to the activation quantizer it wraps:
    for every bit-width, constructing it and running its forward pass gives
    the result (or the exception) of constructing and running
    [activation_quantize_fn] directly; its own [n_bits >= 32] test can only
    fire at 32, where the wrapped module is the identity as well. *)
Theorem DRFActivation_agrees (k : Z) (x : tensor) :
  (self <- DRFActivation_init k ;; DRFActivation_forward self x) =
  (self <- activation_quantize_fn_init k ;;
   activation_quantize_fn_forward self x).
Proof.
  unfold DRFActivation_init.
  destruct (Z.le_gt_cases k 8) as [L | G];
    [ | destruct (Z.eq_dec k 32) as [E | N]].
  1, 2: rewrite activation_quantize_fn_init_ok by lia; simpl;
        unfold DRFActivation_forward, activation_quantize_fn_forward; simpl;
        destruct (Z.leb_spec 32 k); destruct (Z.eqb_spec k 32);
        try lia; reflexivity.
  assert (H : ~ (k <= 8 \/ k = 32)%Z) by lia.
  destruct (init_assertion_fails H) as [_ Ea]. rewrite Ea. reflexivity.
Qed.

(** X10. For every bit-width [k] in 2..8, whatever the convolution
    primitive and the input, [DRFConv2d.forward] is the convolution of the
    input with a weight tensor of integers between [-2^(k-1)] and
    [2^(k-1) - 1] (for weights without [nan] in which some [tanh] value
    has magnitude at least [2^-125]). *)
Theorem DRFConv2d_integer_weights (tanhQ : Q -> Q) (conv_args : Type)
  (F_conv2d : tensor -> tensor -> conv_args -> result tensor)
  (k : Z) (weight : tensor) (args : conv_args) (in_tensor : tensor) :
  (2 <= k <= 8)%Z ->
  Forall (fun a => is_nan a = false) weight ->
  Exists at_least_half_normal (torch_tanh tanhQ weight) ->
  exists weight_q : tensor,
    length weight_q = length weight /\
    Forall (integer_between (- 2 ^ (k - 1)) (2 ^ (k - 1) - 1)) weight_q /\
    (self <- DRFConv2d_init k weight args ;;
     DRFConv2d_forward tanhQ F_conv2d self in_tensor) =
    F_conv2d in_tensor weight_q args.
Proof.
  intros Hk Hw Hbig.
  destruct (weight_forward_range_aux tanhQ Hk Hw
              (at_least_half_normal_nonzero Hbig)) as [out [Hout [Hlen Hall]]].
  exists out. split; [exact Hlen | split; [exact Hall | ]].
  unfold DRFConv2d_init.
  rewrite weight_quantize_fn_init_ok in * by width_lia. cbn [bind] in *.
  unfold DRFConv2d_forward. cbn [dc_quantize_fn dc_weight dc_args].
  rewrite Hout. reflexivity.
Qed.

Lemma DRFConv2d_integer_weights_witness :
  exists weight_q : tensor,
    length weight_q = length [Fin (3 # 4); Fin (-1 # 3)] /\
    Forall (integer_between (- 2 ^ (8 - 1)) (2 ^ (8 - 1) - 1)) weight_q /\
    (self <- DRFConv2d_init 8 [Fin (3 # 4); Fin (-1 # 3)] tt ;;
     DRFConv2d_forward tanh_pade (fun _ wq _ => Ok wq) self [Fin 5]) =
    (fun _ wq (_ : unit) => Ok wq) [Fin 5] weight_q tt.
Proof.
  apply (@DRFConv2d_integer_weights tanh_pade unit (fun _ wq _ => Ok wq) 8
           [Fin (3 # 4); Fin (-1 # 3)] tt [Fin 5]).
  - lia.
  - repeat constructor.
  - apply Exists_cons_hd. vm_compute. discriminate.
Defined.

(** X11. At the two special widths [DRFConv2d.forward] does not depend on
    the quantization arithmetic: at 32 bits it is the convolution with the
    stored weights themselves, and at 1 bit it raises before the
    convolution is reached, whatever the primitive, weights and input. *)
Theorem DRFConv2d_special_widths (tanhQ : Q -> Q) (conv_args : Type)
  (F_conv2d : tensor -> tensor -> conv_args -> result tensor)
  (weight : tensor) (args : conv_args) (in_tensor : tensor) :
  (self <- DRFConv2d_init 32 weight args ;;
   DRFConv2d_forward tanhQ F_conv2d self in_tensor) =
  F_conv2d in_tensor weight args /\
  (self <- DRFConv2d_init 1 weight args ;;
   DRFConv2d_forward tanhQ F_conv2d self in_tensor) =
  Raise UnboundLocalError.
Proof. split; reflexivity. Qed.

(** ** Data loading *)

Lemma Qfloor_unique (z : Z) (q : Q) :
  inject_Z z <= q -> q < inject_Z (z + 1) -> Qfloor q = z.
Proof.
  intros Hlo Hhi.
  assert (H1 : (z <= Qfloor q)%Z).
  { rewrite <- (Qfloor_Z z). apply Qfloor_resp_le. exact Hlo. }
  assert (H2 : (Qfloor q < z + 1)%Z).
  { rewrite Zlt_Qlt. eapply Qle_lt_trans; [apply Qfloor_le | exact Hhi]. }
  lia.
Qed.

(** X12. [to_signed_char] maps every tensor with elements in
    [[-0.5, 0.5]] to integers of the signed-char range -128..127. *)
Theorem to_signed_char_range (t : tensor) :
  Forall (fun a => exists q, a = Fin q /\ - (1 # 2) <= q <= 1 # 2) t ->
  length (to_signed_char t) = length t /\
  Forall (fun b => exists j : Z, (-128 <= j <= 127)%Z /\ b = Fin (inject_Z j))
    (to_signed_char t).
Proof.
  intros H. unfold to_signed_char, torch_floor, smul. rewrite map_map.
  split; [apply length_map | ].
  apply Forall_forall. intros b Hb.
  apply in_map_iff in Hb. destruct Hb as [a [Eb Ha]]. subst b.
  rewrite Forall_forall in H. destruct (H a Ha) as [q [Eq [Hlo Hhi]]]. subst a.
  exists (Qfloor (255 * q)). split; [ | reflexivity]. split.
  - rewrite <- (Qfloor_Z (-128)). apply Qfloor_resp_le.
    change (inject_Z (-128)) with (-128 # 1). lra.
  - change 127%Z with (Qfloor (255 # 2)). apply Qfloor_resp_le. lra.
Qed.

Lemma to_signed_char_range_witness :
  length (to_signed_char [Fin (-1 # 2); Fin (1 # 2); Fin (1 # 3)]) =
  length [Fin (-1 # 2); Fin (1 # 2); Fin (1 # 3)] /\
  Forall (fun b => exists j : Z, (-128 <= j <= 127)%Z /\ b = Fin (inject_Z j))
    (to_signed_char [Fin (-1 # 2); Fin (1 # 2); Fin (1 # 3)]).
Proof.
  apply (@to_signed_char_range [Fin (-1 # 2); Fin (1 # 2); Fin (1 # 3)]).
  repeat constructor;
    (eexists; split; [reflexivity | split; unfold Qle; simpl; lia]).
Defined.

Lemma loader_pixel (p : Z) :
  ffloor (fmul (Fin 255)
            (fdiv (fsub (fdiv (Fin (inject_Z p)) (Fin 255)) (Fin (1 # 2)))
               (Fin 1))) =
  Fin (inject_Z (p - 128)).
Proof.
  unfold fdiv, fsub, fadd, fneg, fmul, ffloor.
  change (Qis_zero 255) with false. change (Qis_zero 1) with false.
  cbv beta iota. do 2 apply f_equal. apply Qfloor_unique.
  - rewrite inject_Z_sub. change (inject_Z 128) with (128 # 1).
    assert (E : 255 * ((inject_Z p / 255 + - (1 # 2)) / 1)
                == inject_Z p - (255 # 2)) by field.
    rewrite E. lra.
  - rewrite inject_Z_plus, inject_Z_sub.
    change (inject_Z 128) with (128 # 1). change (inject_Z 1) with 1.
    assert (E : 255 * ((inject_Z p / 255 + - (1 # 2)) / 1)
                == inject_Z p - (255 # 2)) by field.
    rewrite E. lra.
Qed.

(** X13. On the loaders' images the pipeline is exact: a pixel of 8-bit
    value [p], after [ToTensor], [Normalize((0.5,), (1,))] and
    [to_signed_char], is the integer [p - 128]. *)
Theorem loader_pixels_signed (img : list Z) :
  to_signed_char (loader_transform img) =
  map (fun p => Fin (inject_Z (p - 128))) img.
Proof.
  unfold to_signed_char, loader_transform, Normalize, ToTensor,
    torch_floor, smul, tdiv, tsub.
  rewrite !map_map. apply map_ext. intros p. apply loader_pixel.
Qed.
